(** * Vocal processing pipeline of main.py

    A shallow embedding of [process_vocals_for_phonk] (main.py, lines 31-97).

    The script is glue around three third-party packages.  Their routines
    (librosa's loader, beat tracker, time-stretch and pitch-shift; pydub's
    normalize and export) are not part of the repository, so they enter the
    model as the fields of a record [Libs]; what a theorem needs to know
    about one of them is stated as a named contract and appears among the
    theorem's hypotheses.  Everything main.py itself does is modelled
    concretely: the order of the calls and of the printed messages, the
    try/except structure, the stretch ratio, the conversion of the samples
    to 16-bit integers and the construction of the audio segment.

    Numbers: a finite float is modelled by the rational it denotes.  The
    one float operation main.py performs on the samples, the float32
    product of line 75, is rounded as IEEE 754 binary32 does (to nearest,
    ties to even); tempi and the stretch ratio are exact rationals.  NaN
    and infinite samples are outside the model; integers are [Z]. *)

From Stdlib Require Import ZArith QArith Qabs Qround Qpower Lia Lqa.
From stdpp Require Import gmap strings list pretty.

Local Open Scope Z_scope.

(** ** Exceptions and results *)

(** The three exception families the handlers of lines 94-97 tell apart:
    [FileNotFoundError], any other subclass of [Exception], and exceptions
    outside [Exception] (KeyboardInterrupt, SystemExit), which neither
    handler catches.  Each carries the text [str(e)]. *)
Inductive exn : Type :=
  | FileNotFoundError (msg : string)
  | Exception (msg : string)
  | BaseException (msg : string).

Inductive result (A : Type) : Type :=
  | Ok (a : A)
  | Raise (e : exn).
Arguments Ok {A} a.
Arguments Raise {A} e.

(** ** The world: standard output and the file system *)

(** Files are modelled up to their container encoding: a WAV file is its
    format parameters and its frame bytes, anything else is opaque. *)
Inductive file : Type :=
  | Wav (nchannels sampwidth framerate : Z) (frames : list Z)
  | Encoded (bytes : list Z).

Record world : Type := World {
  stdout : list string;
  fs : gmap string file
}.

(** ** State and exception monad *)

Definition M (A : Type) : Type := world → result A * world.

Definition ret {A} (a : A) : M A := λ w, (Ok a, w).

Definition bind {A B} (m : M A) (k : A → M B) : M B :=
  λ w, match m w with
       | (Ok a, w') => k a w'
       | (Raise e, w') => (Raise e, w')
       end.

Definition raise {A} (e : exn) : M A := λ w, (Raise e, w).

(** A call into a routine that touches neither stdout nor the files. *)
Definition call {A} (r : result A) : M A := λ w, (r, w).

Definition print (s : string) : M unit :=
  λ w, (Ok tt, World (stdout w ++ [s]) (fs w)).

(** [try: body except handler]. *)
Definition try_except {A} (body : M A) (handler : exn → M A) : M A :=
  λ w, match body w with
       | (Ok a, w') => (Ok a, w')
       | (Raise e, w') => handler e w'
       end.

#[global] Instance M_ret : MRet M := @ret.
#[global] Instance M_bind : MBind M := λ A B k m, bind m k.

(** ** numpy and pydub values built by main.py *)

(** Integer part of a rational, rounding toward zero. *)
Definition trunc (q : Q) : Z := Z.quot (Qnum q) (Z.pos (Qden q)).

(** Reinterpretation of the low 16 bits of an integer as a signed 16-bit
    value (two's complement). *)
Definition int16_of_bits (t : Z) : Z :=
  let u := Z.land t 65535 in
  if u <? 32768 then u else u - 65536.

(** *** float32 arithmetic

    The samples are a float32 array, so the product of line 75 is a
    float32 product: the exact product rounded to the nearest binary32
    number, ties to the even significand. *)

(** The exponent [e] of the binade of a positive rational [a]:
    [2^e <= a < 2^(e+1)]. *)
Definition binade (a : Q) : Z :=
  if Qle_bool 1 a then Z.log2 (Qfloor a)
  else - Z.log2_up (Qceiling (/ a)).

(** The nearest integer, a tie going to the even one. *)
Definition round_half_even (r : Q) : Z :=
  let f := Qfloor r in
  match (r - inject_Z f ?= 1 # 2)%Q with
  | Lt => f
  | Gt => f + 1
  | Eq => if Z.even f then f else f + 1
  end.

(** Exponent of the spacing of binary32 at a positive [a]: 24 significant
    bits in the binade of [a], and the fixed spacing 2^-149 of the
    subnormal numbers below 2^-126. *)
Definition ulp_exp (a : Q) : Z := Z.max (binade a) (-126) - 23.

(** Rounding of a positive rational to binary32. *)
Definition round_f32_pos (a : Q) : Q :=
  (inject_Z (round_half_even (a / 2 ^ ulp_exp a)) * 2 ^ ulp_exp a)%Q.

(** Rounding of a rational to binary32, by sign and magnitude.  A result
    of magnitude 2^128 or more stands for the infinity float32 yields on
    overflow; [cvt_int32] below converts both alike. *)
Definition round_f32 (q : Q) : Q :=
  match Qnum q with
  | 0 => 0%Q
  | Z.pos _ => round_f32_pos q
  | Z.neg _ => (- round_f32_pos (- q))%Q
  end.

(** Conversion of a float to a signed 32-bit integer as the hardware
    performs it: the fractional part is dropped, and a value that does not
    fit yields the pattern 0x80000000. *)
Definition cvt_int32 (q : Q) : Z :=
  let t := trunc q in
  if (-2147483648 <=? t) && (t <=? 2147483647) then t else -2147483648.

(** [.astype(np.int16)] on a float32: the C cast, which converts to a
    32-bit integer and stores its low 16 bits. *)
Definition astype_int16 (q : Q) : Z := int16_of_bits (cvt_int32 q).

(** Line 75, one sample: [(x * 32767).astype(np.int16)]. *)
Definition quantize (x : Q) : Z :=
  astype_int16 (round_f32 (x * 32767)%Q).

(** Line 75: [y_shifted_int16 = (y_shifted * 32767).astype(np.int16)]. *)
Definition y_shifted_int16 (y_shifted : list Q) : list Z :=
  quantize <$> y_shifted.

(** [dtype.itemsize] of an int16 array. *)
Definition itemsize_int16 : Z := 2.

(** [.tobytes()] of an int16 array: two bytes per sample, low byte first. *)
Definition tobytes (a : list Z) : list Z :=
  a ≫= λ v, [Z.land v 255; Z.land (Z.shiftr v 8) 255].

(** A pydub audio segment: raw frame data and its format parameters. *)
Record AudioSegment : Type := mkAudioSegment {
  data : list Z;
  frame_rate : Z;
  sample_width : Z;
  channels : Z
}.

(** Lines 78-83. *)
Definition processed_audio (y_int16 : list Z) (sr : Z) : AudioSegment :=
  mkAudioSegment (tobytes y_int16) sr itemsize_int16 1.

(** Line 57, for a target BPM other than zero.  At [target_bpm = 0] the
    Python division raises [ZeroDivisionError] or yields an infinity,
    depending on the type of the tempo, which this rational quotient does
    not describe; the theorems about later stages assume a positive
    target. *)
Definition stretch_ratio (original_tempo target_bpm : Q) : Q :=
  (original_tempo / target_bpm)%Q.

(** ** The third-party routines *)

Record Libs : Type := {
  (** [librosa.load(path, sr=None)]: samples and native sample rate. *)
  librosa_load : gmap string file → string → result (list Q * Z);
  (** [librosa.beat.beat_track(y=, sr=)]: tempo and beat frames. *)
  beat_track : list Q → Z → result (Q * list Z);
  (** [librosa.effects.time_stretch(y=, rate=)]. *)
  time_stretch : list Q → Q → result (list Q);
  (** [librosa.effects.pitch_shift(y=, sr=, n_steps=)]. *)
  pitch_shift : list Q → Z → Z → result (list Q);
  (** [AudioSegment.normalize()]. *)
  normalize : AudioSegment → result AudioSegment;
  (** [AudioSegment.export(path, format=)]: outcome and the files after. *)
  export : AudioSegment → string → string → gmap string file
           → result unit * gmap string file;
  (** [f"{x:.2f}"] and [f"{x}"] on a float. *)
  format_2f : Q → string;
  format_float : Q → string
}.

(** ** The messages *)

Definition msg_start : string := "Starting vocal processing for phonk...".

Definition msg_loaded (input_path : string) (sr : Z) : string :=
  "Loaded audio file: " +:+ input_path +:+ " with a sample rate of "
  +:+ pretty sr +:+ " Hz.".

Definition msg_tempo (L : Libs) (original_tempo : Q) : string :=
  "Estimated original tempo: " +:+ format_2f L original_tempo +:+ " BPM.".

Definition msg_stretched (L : Libs) (target_bpm : Q) : string :=
  "Time-stretched audio to approximately " +:+ format_float L target_bpm
  +:+ " BPM.".

Definition msg_shifted (pitch_shift : Z) : string :=
  "Pitch-shifted audio by " +:+ pretty pitch_shift +:+ " semitones.".

Definition msg_exporting (output_path : string) : string :=
  "Exporting final processed vocal track to " +:+ output_path +:+ "...".

Definition msg_complete : string :=
  "Vocal processing complete! Check the new file.".

Definition msg_not_found (input_path : string) : string :=
  "Error: The audio file at '" +:+ input_path
  +:+ "' was not found. Please ensure it exists.".

Definition msg_unexpected (e : string) : string :=
  "An unexpected error occurred: " +:+ e.

(** ** The pipeline *)

Section Pipeline.
Variable L : Libs.

Definition load (input_path : string) : M (list Q * Z) :=
  λ w, (librosa_load L (fs w) input_path, w).

Definition do_export (seg : AudioSegment) (output_path format : string)
  : M unit :=
  λ w, let '(r, fs') := export L seg output_path format (fs w) in
       (r, World (stdout w) fs').

(** Lines 49-63, step 1: analyze and adjust tempo. *)
Definition step1_adjust_tempo (y : list Q) (sr : Z) (target_bpm : Q)
  : M (list Q) :=
  '(original_tempo, _) ← call (beat_track L y sr);
  print (msg_tempo L original_tempo);;
  y_stretched ← call (time_stretch L y
                        (stretch_ratio original_tempo target_bpm));
  print (msg_stretched L target_bpm);;
  mret y_stretched.

(** Lines 65-69, step 2: pitch-shift the vocals. *)
Definition step2_pitch_shift (y_stretched : list Q) (sr n_steps : Z)
  : M (list Q) :=
  y_shifted ← call (pitch_shift L y_stretched sr n_steps);
  print (msg_shifted n_steps);;
  mret y_shifted.

(** Lines 71-92, step 3: normalize and export. *)
Definition step3_normalize_export (y_shifted : list Q) (sr : Z)
    (output_path : string) : M unit :=
  seg ← call (normalize L
                (processed_audio (y_shifted_int16 y_shifted) sr));
  print (msg_exporting output_path);;
  do_export seg output_path "wav";;
  print msg_complete.

(** Lines 46-92, the body of the [try]. *)
Definition try_body (input_path output_path : string) (target_bpm : Q)
    (n_steps : Z) : M unit :=
  '(y, sr) ← load input_path;
  print (msg_loaded input_path sr);;
  y_stretched ← step1_adjust_tempo y sr target_bpm;
  y_shifted ← step2_pitch_shift y_stretched sr n_steps;
  step3_normalize_export y_shifted sr output_path.

(** Lines 94-97, the two [except] clauses. *)
Definition handlers (input_path : string) (e : exn) : M unit :=
  match e with
  | FileNotFoundError _ => print (msg_not_found input_path)
  | Exception m => print (msg_unexpected m)
  | BaseException _ => raise e
  end.

(** Lines 31-97. *)
Definition process_vocals_for_phonk (input_path output_path : string)
    (target_bpm : Q) (pitch_shift : Z) : M unit :=
  print msg_start;;
  try_except (try_body input_path output_path target_bpm pitch_shift)
             (handlers input_path).

End Pipeline.

(** Lines 17-29, the configuration constants. *)
Definition VOCAL_PATH : string := "vocals.mp3".
Definition OUTPUT_PATH : string := "processed_vocals.wav".
Definition TARGET_BPM : Q := 65.
Definition PITCH_SHIFT_SEMITONES : Z := -5.

(** Lines 99-100. *)
Definition main (L : Libs) : M unit :=
  process_vocals_for_phonk L VOCAL_PATH OUTPUT_PATH TARGET_BPM
    PITCH_SHIFT_SEMITONES.

(** A run is successful when the last line it printed is the completion
    message of line 92. *)
Definition successful (w' : world) : Prop :=
  last (stdout w') = Some msg_complete.

(** The saturating conversion, which clips to the nearest representable
    extreme.  main.py does not use it; it is here to be compared with
    [int16_of_bits]. *)
Definition saturate_int16 (t : Z) : Z := Z.max (-32768) (Z.min 32767 t).

(** ** Contracts of the third-party routines *)

Definition len {A} (l : list A) : Q := inject_Z (Z.of_nat (length l)).

(** The loader fails with [FileNotFoundError] on a path that does not
    resolve. *)
Definition load_missing_contract (L : Libs) : Prop :=
  ∀ (files : gmap string file) (p : string),
    files !! p = None →
    ∃ m, librosa_load L files p = Raise (FileNotFoundError m).

(** Normalization changes the sample values only. *)
Definition normalize_keeps_format (L : Libs) : Prop :=
  ∀ s s', normalize L s = Ok s' →
    frame_rate s' = frame_rate s
    ∧ sample_width s' = sample_width s
    ∧ channels s' = channels s.

(** A successful export in format "wav" stores, at the given path, a WAV
    file with the segment's parameters and data. *)
Definition export_writes_wav (L : Libs) : Prop :=
  ∀ s p (files files' : gmap string file),
    export L s p "wav" files = (Ok tt, files') →
    files' = <[p := Wav (channels s) (sample_width s) (frame_rate s)
                        (data s)]> files.

(** ** A stand-in implementation of the routines

    Simple executable routines that meet the contracts above; they serve
    to run the pipeline on concrete inputs. *)

Definition demo_load (files : gmap string file) (p : string)
  : result (list Q * Z) :=
  match files !! p with
  | None => Raise (FileNotFoundError p)
  | Some (Wav _ _ r frames) => Ok ((λ b, b # 256)%Q <$> frames, r)
  | Some (Encoded bytes) => Ok ((λ b, b # 256)%Q <$> bytes, 44100)
  end.

Definition demo_time_stretch (y : list Q) (rate : Q) : result (list Q) :=
  if 0 <? Qnum rate then
    let n := Z.to_nat (Qfloor (1 / rate * len y + (1 # 2))%Q) in
    Ok ((λ i : nat,
           nth (Z.to_nat (Qfloor (inject_Z (Z.of_nat i) * rate)%Q)) y 0%Q)
        <$> seq 0 n)
  else Raise (Exception "rate must be a positive number").

Definition demo_export (s : AudioSegment) (p fmt : string)
    (files : gmap string file) : result unit * gmap string file :=
  if decide (fmt = "wav") then
    (Ok tt, <[p := Wav (channels s) (sample_width s) (frame_rate s)
                       (data s)]> files)
  else (Raise (Exception "unknown format"), files).

Definition demo_libs : Libs := {|
  librosa_load := demo_load;
  beat_track := λ _ _, Ok (130%Q, []);
  time_stretch := demo_time_stretch;
  pitch_shift := λ y _ _, Ok y;
  normalize := λ s, Ok s;
  export := demo_export;
  format_2f := λ q, pretty (Qfloor q);
  format_float := λ q, pretty (Qfloor q)
|}.

Definition demo_world : world :=
  World [] {[ VOCAL_PATH := Encoded [64; 128; 192; 32] ]}.

(** The same input file next to an unrelated one, and an older output. *)
Definition demo_world2 : world :=
  World [] {[ VOCAL_PATH := Encoded [64; 128; 192; 32];
              "notes.txt" := Encoded [1; 2; 3];
              OUTPUT_PATH := Encoded [0] ]}.

(** The samples [demo_load] decodes from the file of [demo_world]. *)
Definition demo_y : list Q := [64 # 256; 128 # 256; 192 # 256; 32 # 256]%Q.

(** ** Further contracts and stand-ins *)

(** A value an int16 array can hold. *)
Definition is_int16 (v : Z) : Prop := -32768 ≤ v ≤ 32767.

(** Time-stretch rejects a rate that is not positive. *)
Definition time_stretch_rejects_nonpositive (L : Libs) : Prop :=
  ∀ (y : list Q) (rate : Q),
    (rate <= 0)%Q → ∃ m, time_stretch L y rate = Raise (Exception m).

(** [demo_libs] with a beat tracker that finds no beat. *)
Definition no_beat_libs : Libs := {|
  librosa_load := demo_load;
  beat_track := λ _ _, Ok (0%Q, []);
  time_stretch := demo_time_stretch;
  pitch_shift := λ y _ _, Ok y;
  normalize := λ s, Ok s;
  export := demo_export;
  format_2f := λ q, pretty (Qfloor q);
  format_float := λ q, pretty (Qfloor q)
|}.

(** [demo_libs] with an export that finds no directory to write into. *)
Definition no_dir_libs : Libs := {|
  librosa_load := demo_load;
  beat_track := λ _ _, Ok (130%Q, []);
  time_stretch := demo_time_stretch;
  pitch_shift := λ y _ _, Ok y;
  normalize := λ s, Ok s;
  export := λ _ p _ files, (Raise (FileNotFoundError p), files);
  format_2f := λ q, pretty (Qfloor q);
  format_float := λ q, pretty (Qfloor q)
|}.

(** [demo_libs] with a loader that cannot decode its file. *)
Definition corrupt_libs : Libs := {|
  librosa_load := λ files p,
    match files !! p with
    | None => Raise (FileNotFoundError p)
    | Some _ => Raise (Exception "could not decode the file")
    end;
  beat_track := λ _ _, Ok (130%Q, []);
  time_stretch := demo_time_stretch;
  pitch_shift := λ y _ _, Ok y;
  normalize := λ s, Ok s;
  export := demo_export;
  format_2f := λ q, pretty (Qfloor q);
  format_float := λ q, pretty (Qfloor q)
|}.

(** ** Facts about the 16-bit conversion *)

Lemma land_65535_mod (t : Z) : Z.land t 65535 = t mod 65536.
Proof. change 65535 with (Z.ones 16). by rewrite Z.land_ones. Qed.

Lemma int16_of_bits_range (t : Z) : -32768 ≤ int16_of_bits t ≤ 32767.
Proof.
  unfold int16_of_bits. rewrite land_65535_mod.
  pose proof (Z.mod_pos_bound t 65536 eq_refl).
  destruct (Z.ltb_spec (t mod 65536) 32768); lia.
Qed.

Lemma int16_of_bits_wrap (t : Z) :
  int16_of_bits t = (t + 32768) mod 65536 - 32768.
Proof.
  unfold int16_of_bits. rewrite land_65535_mod.
  destruct (Z.ltb_spec (t mod 65536) 32768);
    Z.div_mod_to_equations; lia.
Qed.

Lemma int16_of_bits_fits (t : Z) :
  -32768 ≤ t ≤ 32767 → int16_of_bits t = t.
Proof.
  intros Ht. rewrite int16_of_bits_wrap.
  rewrite Z.mod_small by lia. lia.
Qed.

Lemma int16_of_bits_congr (t : Z) : (int16_of_bits t - t) mod 65536 = 0.
Proof. rewrite int16_of_bits_wrap. Z.div_mod_to_equations; lia. Qed.

Lemma int16_of_bits_overflow (t : Z) :
  ¬ (-32768 ≤ t ≤ 32767) → int16_of_bits t ≠ t.
Proof. pose proof (int16_of_bits_range t). lia. Qed.

(** [trunc] rounds toward zero: it never moves away from zero and drops
    less than one unit. *)
(** [trunc] rounds toward zero: it never moves away from zero and drops
    less than one unit. *)
Lemma trunc_toward_zero (q : Q) :
  (inject_Z (Z.abs (trunc q)) <= Qabs q)%Q
  ∧ (Qabs q < inject_Z (Z.abs (trunc q) + 1))%Q
  ∧ (0 ≤ Qnum q → 0 ≤ trunc q) ∧ (Qnum q ≤ 0 → trunc q ≤ 0).
Proof.
  destruct q as [n d]. unfold trunc, Qabs, Qle, Qlt, inject_Z. simpl.
  pose proof (Pos2Z.is_pos d) as Hd.
  assert (Habs : Z.abs (Z.quot n (Z.pos d)) = Z.abs n / Z.pos d).
  { rewrite <- Z.quot_abs, (Z.abs_eq (Z.pos d)) by lia.
    apply Z.quot_div_nonneg; lia. }
  rewrite Habs.
  pose proof (Z.mul_div_le (Z.abs n) (Z.pos d) Hd).
  pose proof (Z.mul_succ_div_gt (Z.abs n) (Z.pos d) Hd).
  repeat split; try lia.
  - intros Hn. apply Z.quot_pos; lia.
  - intros Hn. rewrite <- (Z.opp_involutive n), Z.quot_opp_l by lia.
    pose proof (Z.quot_pos (- n) (Z.pos d)). lia.
Qed.

Lemma trunc_floor (q : Q) : 0 ≤ Qnum q → trunc q = Qfloor q.
Proof.
  destruct q as [n d]. unfold trunc. simpl. intros Hn.
  apply Z.quot_div_nonneg; lia.
Qed.

Lemma trunc_ceiling (q : Q) : Qnum q ≤ 0 → trunc q = Qceiling q.
Proof.
  destruct q as [n d]. unfold trunc, Qceiling. simpl. intros Hn.
  rewrite <- (Z.opp_involutive n) at 1. rewrite Z.quot_opp_l by lia.
  f_equal. apply Z.quot_div_nonneg; lia.
Qed.

Lemma trunc_mono (q1 q2 : Q) : (q1 <= q2)%Q → trunc q1 ≤ trunc q2.
Proof.
  intros Hle.
  destruct (Z.le_gt_cases 0 (Qnum q1)) as [H1|H1],
           (Z.le_gt_cases 0 (Qnum q2)) as [H2|H2].
  - rewrite !trunc_floor by done. by apply Qfloor_resp_le.
  - unfold Qle in Hle. pose proof (Pos2Z.is_pos (Qden q1)).
    pose proof (Pos2Z.is_pos (Qden q2)). nia.
  - destruct (trunc_toward_zero q1) as (_ & _ & _ & Hneg).
    destruct (trunc_toward_zero q2) as (_ & _ & Hpos & _).
    specialize (Hneg ltac:(lia)). specialize (Hpos H2). lia.
  - rewrite !trunc_ceiling by lia. by apply Qceiling_resp_le.
Qed.

Lemma trunc_opp (q : Q) : trunc (- q) = - trunc q.
Proof.
  destruct q as [n d]. unfold trunc. simpl. apply Z.quot_opp_l. lia.
Qed.

Lemma trunc_spec (p : Q) :
  ((0 <= p)%Q →
   (inject_Z (trunc p) <= p)%Q ∧ (p < inject_Z (trunc p + 1))%Q)
  ∧ ((p <= 0)%Q →
     (inject_Z (trunc p - 1) < p)%Q ∧ (p <= inject_Z (trunc p))%Q).
Proof.
  split; intros Hp.
  - assert (Hn : 0 ≤ Qnum p).
    { destruct p as [n d]. unfold Qle in Hp. simpl in *. lia. }
    rewrite trunc_floor by done. split; [apply Qfloor_le|apply Qlt_floor].
  - assert (Hn : Qnum p ≤ 0).
    { destruct p as [n d]. unfold Qle in Hp. simpl in *. lia. }
    rewrite trunc_ceiling by done.
    split; [apply Qceiling_lt|apply Qle_ceiling].
Qed.

Lemma saturate_int16_range (t : Z) : -32768 ≤ saturate_int16 t ≤ 32767.
Proof. unfold saturate_int16. lia. Qed.

Lemma int16_congr_unique (a b t : Z) :
  -32768 ≤ a ≤ 32767 → -32768 ≤ b ≤ 32767 →
  (a - t) mod 65536 = 0 → (b - t) mod 65536 = 0 → a = b.
Proof. intros Ha Hb Hat Hbt. Z.div_mod_to_equations. lia. Qed.


(** ** Facts about the float32 rounding *)

Section Float32.
Local Open Scope Q_scope.

Lemma pow2_pos (e : Z) : 0 < 2 ^ e.
Proof. by apply Qpower_0_lt. Qed.

Lemma pow2_plus (a b : Z) : 2 ^ (a + b) == 2 ^ a * 2 ^ b.
Proof. by apply Qpower_plus. Qed.

Lemma pow2_le (a b : Z) : (a <= b)%Z -> 2 ^ a <= 2 ^ b.
Proof. intros H. by apply Qpower_le_compat_l. Qed.

Lemma pow2_lt_inv (a b : Z) : 2 ^ a < 2 ^ b -> (a < b)%Z.
Proof. intros H. by apply (Qpower_lt_compat_l_inv 2). Qed.

Lemma pow2_inject (k : Z) : (0 <= k)%Z -> inject_Z (2 ^ k) == 2 ^ k.
Proof. intros H. by rewrite Zpower_Qpower. Qed.

Lemma pow2_div (a s : Z) : 2 ^ a / 2 ^ s == 2 ^ (a - s).
Proof.
  unfold Qdiv. rewrite <- Qpower_opp, <- pow2_plus.
  by replace (a + - s)%Z with (a - s)%Z by lia.
Qed.

Lemma binade_spec (a : Q) :
  0 < a -> 2 ^ binade a <= a /\ a < 2 ^ (binade a + 1).
Proof.
  intros Ha. unfold binade.
  destruct (Qle_bool 1 a) eqn:H1.
  - apply Qle_bool_iff in H1.
    pose proof (Qfloor_le a) as Hlo. pose proof (Qlt_floor a) as Hhi.
    assert (Hf : (1 <= Qfloor a)%Z).
    { change 1%Z with (Qfloor 1). by apply Qfloor_resp_le. }
    destruct (Z.log2_spec (Qfloor a)) as [Hl Hu]; [lia|].
    pose proof (Z.log2_nonneg (Qfloor a)) as He.
    rewrite <- !pow2_inject by lia. split.
    + eapply Qle_trans; [|exact Hlo]. by rewrite <- Zle_Qle.
    + eapply Qlt_le_trans; [exact Hhi|]. rewrite <- Zle_Qle.
      replace (Z.log2 (Qfloor a) + 1)%Z with (Z.succ (Z.log2 (Qfloor a)))
        by lia. lia.
  - assert (Ha1 : a < 1).
    { apply Qnot_le_lt. intros H. apply Qle_bool_iff in H. congruence. }
    set (r := / a). assert (Hr : a * r == 1) by (apply Qmult_inv_r; lra).
    assert (Hr0 : 0 < r) by (by apply Qinv_lt_0_compat).
    pose proof (Qle_ceiling r) as Hc1. pose proof (Qceiling_lt r) as Hc2.
    set (c := Qceiling r) in *.
    assert (Hc : (1 < c)%Z).
    { rewrite Zlt_Qlt. eapply Qlt_le_trans; [|exact Hc1].
      change (inject_Z 1) with 1. nra. }
    destruct (Z.log2_up_spec c Hc) as [Hl Hu].
    set (k := Z.log2_up c) in *.
    assert (Hk : (1 <= k)%Z).
    { destruct (Z.le_gt_cases 1 k) as [|Hk]; [done|].
      assert (k <= 0)%Z as Hk0 by lia.
      pose proof (Z.pow_le_mono_r 2 k 0 ltac:(lia) Hk0) as Hp.
      destruct (Z.le_gt_cases 0 k).
      - replace k with 0%Z in Hu by lia. simpl in Hu. lia.
      - rewrite Z.pow_neg_r in Hu by lia. lia. }
    assert (HP : inject_Z c <= 2 ^ k).
    { rewrite <- pow2_inject by lia. by rewrite <- Zle_Qle. }
    assert (HP' : 2 ^ (k - 1) <= inject_Z (c - 1)).
    { rewrite <- pow2_inject by lia. rewrite <- Zle_Qle.
      replace (k - 1)%Z with (Z.pred k) by lia. lia. }
    pose proof (pow2_pos k) as Hpk. pose proof (pow2_pos (k - 1)) as Hpk1.
    pose proof (pow2_pos (- k)) as Hnk. pose proof (pow2_pos (- k + 1)) as Hnk1.
    assert (E1 : 2 ^ k * 2 ^ (- k) == 1).
    { rewrite <- pow2_plus. by replace (k + - k)%Z with 0%Z by lia. }
    assert (E2 : 2 ^ (k - 1) * 2 ^ (- k + 1) == 1).
    { rewrite <- pow2_plus. by replace (k - 1 + (- k + 1))%Z with 0%Z by lia. }
    revert Hpk Hpk1 Hnk Hnk1 E1 E2 HP HP'.
    generalize (2 ^ k) (2 ^ (k - 1)) (2 ^ (- k)) (2 ^ (- k + 1)).
    generalize (inject_Z c) (inject_Z (c - 1)) Hc1 Hc2.
    intros C C1 HC HC1 P P1 N N1 ? ? ? ? E1 E2 HP HP'.
    split; nra.
Qed.

Lemma binade_unique (a : Q) (e : Z) :
  0 < a -> 2 ^ e <= a -> a < 2 ^ (e + 1) -> binade a = e.
Proof.
  intros Ha Hlo Hhi. destruct (binade_spec a Ha) as [Blo Bhi].
  assert (binade a < e + 1)%Z.
  { apply pow2_lt_inv. eapply Qle_lt_trans; eauto. }
  assert (e < binade a + 1)%Z.
  { apply pow2_lt_inv. eapply Qle_lt_trans; eauto. }
  lia.
Qed.

Lemma binade_mono (a b : Q) : 0 < a -> a <= b -> (binade a <= binade b)%Z.
Proof.
  intros Ha Hab. destruct (binade_spec a Ha) as [Alo _].
  destruct (binade_spec b) as [_ Bhi]; [lra|].
  assert (binade a < binade b + 1)%Z; [|lia].
  apply pow2_lt_inv. eapply Qle_lt_trans; [exact Alo|].
  eapply Qle_lt_trans; eauto.
Qed.

Lemma round_half_even_cases (r : Q) :
  (round_half_even r = Qfloor r /\ r - inject_Z (Qfloor r) <= 1 # 2
   /\ (r - inject_Z (Qfloor r) == 1 # 2 -> Z.even (Qfloor r) = true))
  \/ (round_half_even r = (Qfloor r + 1)%Z
      /\ 1 # 2 <= r - inject_Z (Qfloor r)
      /\ (r - inject_Z (Qfloor r) == 1 # 2 -> Z.even (Qfloor r) = false)).
Proof.
  unfold round_half_even.
  destruct (Qcompare_spec (r - inject_Z (Qfloor r)) (1 # 2)) as [H|H|H].
  - destruct (Z.even (Qfloor r)) eqn:He; [left|right]; repeat split; lra.
  - left. repeat split; lra.
  - right. repeat split; lra.
Qed.

Lemma round_half_even_near (r : Q) :
  Qabs (inject_Z (round_half_even r) - r) <= 1 # 2.
Proof.
  pose proof (Qfloor_le r) as Hlo. pose proof (Qlt_floor r) as Hhi.
  rewrite inject_Z_plus in Hhi. change (inject_Z 1) with 1 in Hhi.
  apply Qabs_Qle_condition.
  destruct (round_half_even_cases r) as [(-> & H & _)|(-> & H & _)];
    rewrite ?inject_Z_plus; change (inject_Z 1) with 1; split; lra.
Qed.

Lemma round_half_even_tie (r : Q) :
  Qabs (inject_Z (round_half_even r) - r) == 1 # 2 ->
  Z.even (round_half_even r) = true.
Proof.
  pose proof (Qfloor_le r) as Hlo. pose proof (Qlt_floor r) as Hhi.
  rewrite inject_Z_plus in Hhi. change (inject_Z 1) with 1 in Hhi.
  destruct (round_half_even_cases r) as [(-> & H & Heven)|(-> & H & Hodd)].
  - intros Ht. apply Heven.
    rewrite Qabs_neg in Ht by lra. lra.
  - rewrite inject_Z_plus. change (inject_Z 1) with 1. intros Ht.
    rewrite Qabs_pos in Ht by lra.
    rewrite Z.even_add, Hodd by lra. done.
Qed.

Lemma round_half_even_ge (r : Q) (k : Z) :
  inject_Z k <= r -> (k <= round_half_even r)%Z.
Proof.
  intros H. assert (k <= Qfloor r)%Z.
  { rewrite <- (Qfloor_Z k). by apply Qfloor_resp_le. }
  destruct (round_half_even_cases r) as [(-> & _)|(-> & _)]; lia.
Qed.

Lemma round_half_even_le (r : Q) (k : Z) :
  r <= inject_Z k -> (round_half_even r <= k)%Z.
Proof.
  intros H. pose proof (Qfloor_le r) as Hlo.
  assert (Qfloor r <= k)%Z.
  { rewrite <- (Qfloor_Z k). by apply Qfloor_resp_le. }
  destruct (round_half_even_cases r) as [(-> & _)|(-> & Hf & _)]; [done|].
  assert (inject_Z (Qfloor r) < inject_Z k) as Hlt by lra.
  rewrite <- Zlt_Qlt in Hlt. lia.
Qed.

Lemma round_half_even_mono (r1 r2 : Q) :
  r1 <= r2 -> (round_half_even r1 <= round_half_even r2)%Z.
Proof.
  intros H. pose proof (Qfloor_resp_le _ _ H) as Hf.
  pose proof (Qfloor_le r2) as Hlo2.
  destruct (Z.eq_dec (Qfloor r1) (Qfloor r2)) as [Heq|Hne].
  - destruct (round_half_even_cases r1) as [(-> & H1 & E1)|(-> & H1 & E1)],
             (round_half_even_cases r2) as [(-> & H2 & E2)|(-> & H2 & E2)];
      try lia.
    rewrite Heq in H1, E1.
    assert (Ht : r2 - inject_Z (Qfloor r2) == 1 # 2) by lra.
    assert (Ht1 : r1 - inject_Z (Qfloor r2) == 1 # 2) by lra.
    specialize (E1 Ht1). specialize (E2 Ht). congruence.
  - assert (Qfloor r1 + 1 <= Qfloor r2)%Z by lia.
    destruct (round_half_even_cases r1) as [(-> & _)|(-> & _)],
             (round_half_even_cases r2) as [(-> & _)|(-> & _)]; lia.
Qed.

Lemma scaled_bounds (a : Q) :
  0 < a ->
  0 < a / 2 ^ ulp_exp a
  /\ a / 2 ^ ulp_exp a < inject_Z 16777216
  /\ ((-126 <= binade a)%Z -> inject_Z 8388608 <= a / 2 ^ ulp_exp a).
Proof.
  intros Ha. destruct (binade_spec a Ha) as [Hlo Hhi].
  unfold ulp_exp. set (E := Z.max (binade a) (-126)).
  pose proof (pow2_pos (E - 23)) as Hs.
  assert (H24 : 2 ^ (E + 1) == inject_Z 16777216 * 2 ^ (E - 23)).
  { change (inject_Z 16777216) with (2 ^ 24). rewrite <- pow2_plus.
    by replace (24 + (E - 23))%Z with (E + 1)%Z by lia. }
  assert (Hup : a < 2 ^ (E + 1)).
  { eapply Qlt_le_trans; [exact Hhi|]. apply pow2_le. lia. }
  repeat split.
  - apply Qlt_shift_div_l; [done|]. lra.
  - apply Qlt_shift_div_r; [done|]. lra.
  - intros Hn. apply Qle_shift_div_l; [done|].
    replace E with (binade a) by lia.
    assert (H23 : 2 ^ binade a == inject_Z 8388608 * 2 ^ (binade a - 23)).
    { change (inject_Z 8388608) with (2 ^ 23). rewrite <- pow2_plus.
      by replace (23 + (binade a - 23))%Z with (binade a) by lia. }
    lra.
Qed.

Lemma round_f32_pos_bounds (a : Q) :
  0 < a ->
  0 <= round_f32_pos a
  /\ round_f32_pos a <= 2 ^ (Z.max (binade a) (-126) + 1)
  /\ ((-126 <= binade a)%Z -> 2 ^ binade a <= round_f32_pos a).
Proof.
  intros Ha. destruct (scaled_bounds a Ha) as (H0 & H24 & H23).
  unfold round_f32_pos.
  pose proof (pow2_pos (ulp_exp a)) as Hs.
  assert (Hm0 : (0 <= round_half_even (a / 2 ^ ulp_exp a))%Z).
  { apply round_half_even_ge. change (inject_Z 0) with 0. lra. }
  assert (Hm24 : (round_half_even (a / 2 ^ ulp_exp a) <= 16777216)%Z).
  { apply round_half_even_le. lra. }
  rewrite Zle_Qle in Hm0, Hm24. change (inject_Z 0) with 0 in Hm0.
  repeat split.
  - apply Qmult_le_0_compat; lra.
  - assert (E : 2 ^ (Z.max (binade a) (-126) + 1)
                == inject_Z 16777216 * 2 ^ ulp_exp a).
    { change (inject_Z 16777216) with (2 ^ 24). rewrite <- pow2_plus.
      unfold ulp_exp. f_equiv. lia. }
    rewrite E. apply Qmult_le_compat_r; lra.
  - intros Hn. specialize (H23 Hn).
    assert (Hm23 : (8388608 <= round_half_even (a / 2 ^ ulp_exp a))%Z)
      by (by apply round_half_even_ge).
    rewrite Zle_Qle in Hm23.
    assert (E : 2 ^ binade a == inject_Z 8388608 * 2 ^ ulp_exp a).
    { change (inject_Z 8388608) with (2 ^ 23). rewrite <- pow2_plus.
      unfold ulp_exp. f_equiv. lia. }
    rewrite E. apply Qmult_le_compat_r; lra.
Qed.

Lemma round_f32_pos_mono (a b : Q) :
  0 < a -> a <= b -> round_f32_pos a <= round_f32_pos b.
Proof.
  intros Ha Hab. assert (Hb : 0 < b) by lra.
  pose proof (binade_mono a b Ha Hab) as He.
  destruct (Z.eq_dec (ulp_exp a) (ulp_exp b)) as [Hs|Hs].
  - unfold round_f32_pos. rewrite Hs.
    pose proof (pow2_pos (ulp_exp b)) as Hp.
    apply Qmult_le_compat_r; [|lra]. rewrite <- Zle_Qle.
    apply round_half_even_mono. apply Qmult_le_compat_r; [done|].
    apply Qlt_le_weak. by apply Qinv_lt_0_compat.
  - unfold ulp_exp in Hs.
    destruct (round_f32_pos_bounds a Ha) as (_ & Hup & _).
    destruct (round_f32_pos_bounds b Hb) as (_ & _ & Hlo).
    eapply Qle_trans; [exact Hup|].
    eapply Qle_trans; [|apply Hlo; lia].
    apply pow2_le. lia.
Qed.

Lemma Qnum_pos_iff (q : Q) : (0 < Qnum q)%Z <-> 0 < q.
Proof. destruct q as [n d]. unfold Qlt. simpl. lia. Qed.

Lemma Qnum_neg_iff (q : Q) : (Qnum q < 0)%Z <-> q < 0.
Proof. destruct q as [n d]. unfold Qlt. simpl. lia. Qed.

Lemma Qnum_zero_iff (q : Q) : Qnum q = 0%Z <-> q == 0.
Proof. destruct q as [n d]. unfold Qeq. simpl. lia. Qed.

Lemma round_f32_cases (q : Q) :
  (q == 0 /\ round_f32 q = 0)
  \/ (0 < q /\ round_f32 q = round_f32_pos q)
  \/ (q < 0 /\ round_f32 q = - round_f32_pos (- q)).
Proof.
  unfold round_f32. destruct (Qnum q) as [|n|n] eqn:Hn.
  - left. split; [by apply Qnum_zero_iff|done].
  - right. left. split; [apply Qnum_pos_iff; lia|done].
  - right. right. split; [apply Qnum_neg_iff; lia|done].
Qed.

Lemma round_f32_sign (q : Q) :
  (0 <= q -> 0 <= round_f32 q) /\ (q <= 0 -> round_f32 q <= 0).
Proof.
  destruct (round_f32_cases q) as [[H ->]|[[H ->]|[H ->]]].
  - split; intros; lra.
  - destruct (round_f32_pos_bounds q H) as (H0 & _). split; intros; lra.
  - destruct (round_f32_pos_bounds (- q)) as (H0 & _); [lra|].
    split; intros; lra.
Qed.

Lemma round_f32_mono (q1 q2 : Q) :
  q1 <= q2 -> round_f32 q1 <= round_f32 q2.
Proof.
  intros Hle.
  destruct (round_f32_sign q1) as [P1 N1], (round_f32_sign q2) as [P2 N2].
  destruct (round_f32_cases q1) as [[H1 E1]|[[H1 E1]|[H1 E1]]],
           (round_f32_cases q2) as [[H2 E2]|[[H2 E2]|[H2 E2]]];
    try lra;
    try (specialize (P2 ltac:(lra)); specialize (N1 ltac:(lra)); lra).
  - rewrite E1, E2. by apply round_f32_pos_mono.
  - rewrite E1, E2. apply Qopp_le_compat.
    apply round_f32_pos_mono; lra.
Qed.

Lemma round_f32_opp (q : Q) : round_f32 (- q) = - round_f32 q.
Proof.
  destruct q as [[|n|n] d].
  - reflexivity.
  - reflexivity.
  - change (- (Z.neg n # d)) with (Z.pos n # d).
    change (round_f32 (Z.pos n # d)) with (round_f32_pos (Z.pos n # d)).
    change (round_f32 (Z.neg n # d))
      with (- round_f32_pos (Z.pos n # d)).
    destruct (round_f32_pos (Z.pos n # d)) as [m k].
    unfold Qopp. cbn [Qnum Qden]. by rewrite Z.opp_involutive.
Qed.

(** Rounding described by arithmetic alone. *)
Lemma round_f32_spec (q : Q) :
  (q == 0 /\ round_f32 q == 0)
  \/ exists e m : Z,
       (2 ^ e <= Qabs q /\ Qabs q < 2 ^ (e + 1))
       /\ Qabs (inject_Z m - Qabs q / 2 ^ (Z.max e (-126) - 23)) <= 1 # 2
       /\ (Qabs (inject_Z m - Qabs q / 2 ^ (Z.max e (-126) - 23)) == 1 # 2
           -> Z.even m = true)
       /\ Qabs (round_f32 q) == inject_Z m * 2 ^ (Z.max e (-126) - 23)
       /\ (0 < q -> 0 <= round_f32 q) /\ (q < 0 -> round_f32 q <= 0).
Proof.
  destruct (round_f32_sign q) as [SP SN].
  assert (Hpos : forall a, 0 < a ->
    exists e m : Z,
       (2 ^ e <= a /\ a < 2 ^ (e + 1))
       /\ Qabs (inject_Z m - a / 2 ^ (Z.max e (-126) - 23)) <= 1 # 2
       /\ (Qabs (inject_Z m - a / 2 ^ (Z.max e (-126) - 23)) == 1 # 2
           -> Z.even m = true)
       /\ round_f32_pos a == inject_Z m * 2 ^ (Z.max e (-126) - 23)).
  { intros a Ha. exists (binade a), (round_half_even (a / 2 ^ ulp_exp a)).
    split; [by apply binade_spec|].
    split; [apply round_half_even_near|].
    split; [apply round_half_even_tie|]. reflexivity. }
  destruct (round_f32_cases q) as [[H E]|[[H E]|[H E]]].
  - left. split; [done|]. by rewrite E.
  - right. destruct (Hpos q H) as (e & m & Hb & Hn & Ht & Hr).
    exists e, m. rewrite (Qabs_pos q) by lra.
    repeat split; try tauto; try (intros; lra).
    rewrite Qabs_pos by lra. by rewrite E.
  - right. destruct (Hpos (- q)) as (e & m & Hb & Hn & Ht & Hr); [lra|].
    exists e, m. rewrite (Qabs_neg q) by lra.
    repeat split; try tauto; try (intros; lra).
    rewrite Qabs_neg by lra. rewrite E. by rewrite Qopp_involutive.
Qed.

Lemma round_f32_32767 : round_f32 32767 == 32767.
Proof. reflexivity. Qed.

End Float32.

(** ** Facts about the quantization *)

Lemma cvt_int32_fits (q : Q) :
  -2147483648 ≤ trunc q ≤ 2147483647 → cvt_int32 q = trunc q.
Proof.
  intros H. unfold cvt_int32.
  destruct (Z.leb_spec (-2147483648) (trunc q)),
           (Z.leb_spec (trunc q) 2147483647); simpl; lia.
Qed.

Lemma cvt_int32_out (q : Q) :
  ¬ (-2147483648 ≤ trunc q ≤ 2147483647) → cvt_int32 q = -2147483648.
Proof.
  intros H. unfold cvt_int32.
  destruct (Z.leb_spec (-2147483648) (trunc q)),
           (Z.leb_spec (trunc q) 2147483647); simpl; lia.
Qed.

Lemma scaled_product_unit (x : Q) :
  (Qabs x <= 1)%Q →
  -32767 ≤ trunc (round_f32 (x * 32767)) ≤ 32767.
Proof.
  intros Hx. apply Qabs_Qle_condition in Hx as [Hlo Hhi].
  assert (H1 : (round_f32 (x * 32767) <= round_f32 32767)%Q).
  { apply round_f32_mono. lra. }
  assert (H2 : (round_f32 (- (32767)) <= round_f32 (x * 32767))%Q).
  { apply round_f32_mono. lra. }
  apply trunc_mono in H1, H2.
  change (trunc (round_f32 32767)) with 32767 in H1.
  change (trunc (round_f32 (- (32767)))) with (-32767) in H2. lia.
Qed.

Lemma scaled_product_beyond_unit (x : Q) :
  (1 < Qabs x)%Q → 32767 ≤ Z.abs (trunc (round_f32 (x * 32767))).
Proof.
  intros Hx. destruct (Qlt_le_dec x 0) as [Hneg|Hpos].
  - rewrite Qabs_neg in Hx by lra.
    assert (H : (round_f32 (x * 32767) <= round_f32 (- (32767)))%Q).
    { apply round_f32_mono. lra. }
    apply trunc_mono in H.
    change (trunc (round_f32 (- (32767)))) with (-32767) in H. lia.
  - rewrite Qabs_pos in Hx by lra.
    assert (H : (round_f32 32767 <= round_f32 (x * 32767))%Q).
    { apply round_f32_mono. lra. }
    apply trunc_mono in H.
    change (trunc (round_f32 32767)) with 32767 in H. lia.
Qed.

Lemma quantize_nominal (x : Q) :
  (Qabs x <= 1)%Q → quantize x = trunc (round_f32 (x * 32767)).
Proof.
  intros Hx. pose proof (scaled_product_unit x Hx).
  unfold quantize, astype_int16. rewrite cvt_int32_fits by lia.
  apply int16_of_bits_fits. lia.
Qed.

Example quantize_half : quantize (1 # 2) = 16383 ∧ quantize (- (1 # 2)) = -16383.
Proof. split; reflexivity. Qed.

Example quantize_full_scale : quantize 1 = 32767 ∧ quantize (-1) = -32767.
Proof. split; reflexivity. Qed.

Example quantize_two :
  quantize 2 = -2 ∧ saturate_int16 (trunc (2 * 32767)) = 32767.
Proof. split; reflexivity. Qed.

Example quantize_coincides_with_clip :
  trunc ((98303 # 32767) * 32767) = 98303
  ∧ quantize (98303 # 32767) = 32767.
Proof. split; reflexivity. Qed.

Example quantize_rounded_products :
  quantize (32769 # 1073741824) = 1
  ∧ quantize (8388609 # 8388608) = 32767
  ∧ quantize 65537 = -32768
  ∧ quantize 65538 = 0.
Proof. repeat split; reflexivity. Qed.





(** ** Running the pipeline *)

Ltac unfold_py :=
  unfold process_vocals_for_phonk, try_except, try_body,
    step1_adjust_tempo, step2_pitch_shift, step3_normalize_export,
    handlers, load, do_export, print, call, raise,
    mbind, M_bind, bind, mret, M_ret, ret in *;
  simpl in *.

Lemma demo_load_missing : load_missing_contract demo_libs.
Proof.
  intros files p Hp. exists p. simpl. unfold demo_load. by rewrite Hp.
Qed.



(** ** Successful and failed runs *)

Lemma last_app_Forall {A} (P : A → Prop) (l0 l : list A) (x : A) :
  l ≠ [] → Forall P l → last (l0 ++ l) = Some x → P x.
Proof.
  intros Hne Hall Hlast.
  destruct (decide (l = [])) as [->|_]; [done|].
  revert Hlast. induction l using rev_ind; [done|].
  rewrite app_assoc, last_snoc. intros [= ->].
  apply Forall_app in Hall as [_ Hx]. by inversion Hx.
Qed.

Ltac msg_neq :=
  repeat first [ apply Forall_nil_2 | apply Forall_cons_2 ];
  unfold msg_start, msg_loaded, msg_tempo, msg_stretched, msg_shifted,
    msg_exporting, msg_not_found, msg_unexpected, msg_complete;
  simpl; discriminate.

(** What a completed [try] body went through. *)
Lemma try_body_ok_inv (L : Libs) (input_path output_path : string)
    (target_bpm : Q) (n_steps : Z) (w w' : world) :
  try_body L input_path output_path target_bpm n_steps w = (Ok tt, w') →
  ∃ y sr original_tempo beats y_stretched y_shifted seg files',
    librosa_load L (fs w) input_path = Ok (y, sr)
    ∧ beat_track L y sr = Ok (original_tempo, beats)
    ∧ time_stretch L y (stretch_ratio original_tempo target_bpm)
      = Ok y_stretched
    ∧ pitch_shift L y_stretched sr n_steps = Ok y_shifted
    ∧ normalize L (processed_audio (y_shifted_int16 y_shifted) sr) = Ok seg
    ∧ export L seg output_path "wav" (fs w) = (Ok tt, files')
    ∧ w' = World (stdout w ++ [msg_loaded input_path sr;
                               msg_tempo L original_tempo;
                               msg_stretched L target_bpm;
                               msg_shifted n_steps;
                               msg_exporting output_path;
                               msg_complete]) files'.
Proof.
  intros H. unfold_py.
  destruct (librosa_load L (fs w) input_path) as [[y sr]|?] eqn:Hload;
    simpl in H; [|done].
  destruct (beat_track L y sr) as [[tempo beats]|?] eqn:Hbeat;
    simpl in H; [|done].
  destruct (time_stretch L y _) as [y1|?] eqn:Hts; simpl in H; [|done].
  destruct (pitch_shift L y1 sr n_steps) as [y2|?] eqn:Hps;
    simpl in H; [|done].
  destruct (normalize L _) as [seg|?] eqn:Hnorm; simpl in H; [|done].
  destruct (export L seg output_path "wav" (fs w)) as [[[]|?] files']
    eqn:Hexp; simpl in H; [|done].
  injection H as <-.
  exists y, sr, tempo, beats, y1, y2, seg, files'.
  repeat (split; [done|]). by rewrite <- !app_assoc.
Qed.

(** A [try] body that raised has not printed the completion message. *)
Lemma try_body_raise_stdout (L : Libs) (input_path output_path : string)
    (target_bpm : Q) (n_steps : Z) (w w' : world) (e : exn) :
  try_body L input_path output_path target_bpm n_steps w = (Raise e, w') →
  ∃ l, stdout w' = stdout w ++ l ∧ Forall (λ m, m ≠ msg_complete) l.
Proof.
  intros H. unfold_py.
  destruct (librosa_load L (fs w) input_path) as [[y sr]|?] eqn:Hload;
    simpl in H.
  2: { injection H as <- <-. exists []. by rewrite app_nil_r. }
  destruct (beat_track L y sr) as [[tempo beats]|?] eqn:Hbeat; simpl in H.
  2: { injection H as <- <-. eexists [_]. split; [done|msg_neq]. }
  destruct (time_stretch L y _) as [y1|?] eqn:Hts; simpl in H.
  2: { injection H as <- <-. eexists [_; _]. simpl.
       rewrite <- !app_assoc. split; [done|msg_neq]. }
  destruct (pitch_shift L y1 sr n_steps) as [y2|?] eqn:Hps; simpl in H.
  2: { injection H as <- <-. eexists [_; _; _]. simpl.
       rewrite <- !app_assoc. split; [done|msg_neq]. }
  destruct (normalize L _) as [seg|?] eqn:Hnorm; simpl in H.
  2: { injection H as <- <-. eexists [_; _; _; _]. simpl.
       rewrite <- !app_assoc. split; [done|msg_neq]. }
  destruct (export L seg output_path "wav" (fs w)) as [[[]|?] files']
    eqn:Hexp; simpl in H; [done|].
  injection H as <- <-. eexists [_; _; _; _; _]. simpl.
  rewrite <- !app_assoc. split; [done|msg_neq].
Qed.

(** A run whose last printed line is the completion message returned
    normally after a completed [try] body. *)
Lemma successful_inv (L : Libs) (input_path output_path : string)
    (target_bpm : Q) (n_steps : Z) (w w' : world) (r : result unit) :
  process_vocals_for_phonk L input_path output_path target_bpm n_steps w
  = (r, w') →
  successful w' →
  r = Ok tt
  ∧ try_body L input_path output_path target_bpm n_steps
      (World (stdout w ++ [msg_start]) (fs w)) = (Ok tt, w').
Proof.
  unfold successful, process_vocals_for_phonk, try_except.
  unfold mbind, M_bind, bind, print. simpl.
  destruct (try_body _ _ _ _ _ _) as [[[]|e] w1] eqn:Hbody.
  { by intros [= <- <-] _. }
  apply try_body_raise_stdout in Hbody as (l & Hout & Hl). simpl in Hout.
  destruct e as [m|m|m]; simpl; unfold print, raise; intros [= <- <-];
    simpl; rewrite Hout.
  - rewrite last_snoc. intros Hlast.
    assert (msg_not_found input_path ≠ msg_complete) by msg_neq.
    congruence.
  - rewrite last_snoc. intros Hlast.
    assert (msg_unexpected m ≠ msg_complete) by msg_neq.
    congruence.
  - rewrite <- app_assoc. intros Hlast.
    eapply (last_app_Forall (λ m, m ≠ msg_complete)) in Hlast; [done|done|].
    apply Forall_cons_2; [msg_neq|done].
Qed.

(** ** The exported file *)

Lemma demo_normalize_keeps_format : normalize_keeps_format demo_libs.
Proof. by intros s s' [= <-]. Qed.

Lemma demo_export_writes_wav : export_writes_wav demo_libs.
Proof.
  intros s p files files'. simpl. unfold demo_export.
  case_decide; [|done]. by intros [= <-].
Qed.

(** C6. After a successful run the output path holds a WAV file with one
    channel, two-byte (16-bit) samples and, as frame rate, the sample rate
    at which the input file was decoded. *)
Theorem output_is_mono_int16_wav (L : Libs) (input_path output_path : string)
    (target_bpm : Q) (n_steps : Z) (w w' : world) (r : result unit) :
  normalize_keeps_format L →
  export_writes_wav L →
  process_vocals_for_phonk L input_path output_path target_bpm n_steps w
  = (r, w') →
  successful w' →
  ∃ y sr frames,
    librosa_load L (fs w) input_path = Ok (y, sr)
    ∧ fs w' !! output_path = Some (Wav 1 2 sr frames).
Proof.
  intros Hnorm Hexp Hrun Hok.
  destruct (successful_inv _ _ _ _ _ _ _ _ Hrun Hok) as [_ Hbody].
  apply try_body_ok_inv in Hbody
    as (y & sr & tempo & beats & y1 & y2 & seg & files'
        & Hload & _ & _ & _ & Hseg & Hwrite & ->).
  simpl in Hload, Hwrite.
  apply Hnorm in Hseg as (Hrate & Hwidth & Hchan).
  apply Hexp in Hwrite as ->.
  exists y, sr, (data seg). split; [done|]. simpl.
  rewrite lookup_insert_eq, Hrate, Hwidth, Hchan. done.
Qed.

Lemma output_is_mono_int16_wav_witness :
  successful (main demo_libs demo_world).2
  ∧ ∃ y sr frames,
      librosa_load demo_libs (fs demo_world) VOCAL_PATH = Ok (y, sr)
      ∧ fs (main demo_libs demo_world).2 !! OUTPUT_PATH
        = Some (Wav 1 2 sr frames).
Proof.
  split; [reflexivity|].
  apply (output_is_mono_int16_wav demo_libs VOCAL_PATH OUTPUT_PATH
           TARGET_BPM PITCH_SHIFT_SEMITONES demo_world
           (main demo_libs demo_world).2 (main demo_libs demo_world).1
           demo_normalize_keeps_format demo_export_writes_wav);
    reflexivity.
Defined.

Example demo_output_file :
  fs (main demo_libs demo_world).2 !! OUTPUT_PATH
  = Some (Wav 1 2 44100 [255; 31; 255; 95]).
Proof. vm_compute. reflexivity. Qed.

(** ** Further facts about the values built by main.py *)

Lemma tobytes_length (a : list Z) :
  length (tobytes a) = (2 * length a)%nat.
Proof.
  unfold tobytes. induction a as [|v a IH]; [done|].
  rewrite bind_cons, length_app, IH. simpl. lia.
Qed.

Lemma tobytes_bytes (a : list Z) : Forall (λ b, 0 ≤ b < 256) (tobytes a).
Proof.
  unfold tobytes. induction a as [|v a IH]; [constructor|].
  rewrite bind_cons. apply Forall_app. split; [|done].
  change 255 with (Z.ones 8).
  repeat constructor; rewrite Z.land_ones by lia;
    apply Z.mod_pos_bound; lia.
Qed.

(** The two bytes of a sample determine it. *)
Lemma tobytes_sample (v : Z) :
  -32768 ≤ v ≤ 32767 →
  int16_of_bits (Z.land v 255 + 256 * Z.land (Z.shiftr v 8) 255) = v.
Proof.
  intros Hv. rewrite int16_of_bits_wrap.
  change 255 with (Z.ones 8). rewrite !Z.land_ones by lia.
  rewrite Z.shiftr_div_pow2 by lia. change (2 ^ 8) with 256.
  Z.div_mod_to_equations. lia.
Qed.

Lemma processed_audio_format (y_int16 : list Z) (sr : Z) :
  frame_rate (processed_audio y_int16 sr) = sr
  ∧ sample_width (processed_audio y_int16 sr) = 2
  ∧ channels (processed_audio y_int16 sr) = 1
  ∧ length (data (processed_audio y_int16 sr)) = (2 * length y_int16)%nat.
Proof. repeat split. apply tobytes_length. Qed.

(** A silent buffer is quantized to silent frames. *)
Lemma quantize_silence (n : nat) :
  y_shifted_int16 (replicate n 0%Q) = replicate n 0
  ∧ tobytes (replicate n 0) = replicate (2 * n) 0.
Proof.
  split.
  - unfold y_shifted_int16. by rewrite fmap_replicate.
  - unfold tobytes. induction n as [|n IH]; [done|].
    rewrite replicate_S, bind_cons, IH.
    replace (2 * S n)%nat with (S (S (2 * n))) by lia. done.
Qed.

(** Samples whose exact product with 32767 stays below 1 - 2^-25 in
    magnitude become zero: their float32 product is below 1. *)
Lemma quantize_small (x : Q) :
  (Qabs (x * 32767) < 33554431 # 33554432)%Q → quantize x = 0.
Proof.
  intros Hx.
  assert (Hpos : ∀ a : Q,
    (0 < a)%Q → (a < 33554431 # 33554432)%Q → (round_f32_pos a < 1)%Q).
  { intros a Ha Ha1.
    destruct (binade_spec a Ha) as [Blo Bhi].
    assert (He : binade a < 0).
    { apply pow2_lt_inv. eapply Qle_lt_trans; [exact Blo|].
      change (2 ^ 0)%Q with 1%Q. lra. }
    destruct (Z.eq_dec (binade a) (-1)) as [E1|E1].
    - unfold round_f32_pos, ulp_exp. rewrite E1.
      change (Z.max (-1) (-126) - 23) with (-24).
      change (2 ^ (-24))%Q with (1 # 16777216)%Q.
      pose proof (round_half_even_near (a / (1 # 16777216))) as Hn.
      apply Qabs_Qle_condition in Hn as [_ Hn].
      assert (Ha' : (a / (1 # 16777216) == a * 16777216)%Q)
        by (field; discriminate).
      revert Hn Ha'. generalize (a / (1 # 16777216))%Q. intros r Hn Ha'.
      assert (Hm : (inject_Z (round_half_even r) < inject_Z 16777216)%Q).
      { change (inject_Z 16777216) with 16777216%Q. lra. }
      rewrite <- Zlt_Qlt in Hm.
      assert (Hm' : (inject_Z (round_half_even r) <= inject_Z 16777215)%Q)
        by (rewrite <- Zle_Qle; lia).
      change (inject_Z 16777215) with 16777215%Q in Hm'. lra.
    - destruct (round_f32_pos_bounds a Ha) as (_ & Hup & _).
      eapply Qle_lt_trans; [exact Hup|].
      eapply Qle_lt_trans; [apply (pow2_le _ (-1)); lia|].
      reflexivity. }
  assert (Hr : (-1 < round_f32 (x * 32767))%Q
               ∧ (round_f32 (x * 32767) < 1)%Q).
  { destruct (round_f32_cases (x * 32767)) as [[H ->]|[[H ->]|[H ->]]].
    - split; reflexivity.
    - rewrite Qabs_pos in Hx by lra.
      destruct (round_f32_pos_bounds _ H) as (H0 & _).
      specialize (Hpos _ H Hx). split; lra.
    - rewrite Qabs_neg in Hx by lra.
      destruct (round_f32_pos_bounds (- (x * 32767))) as (H0 & _); [lra|].
      specialize (Hpos (- (x * 32767))%Q ltac:(lra) Hx). split; lra. }
  destruct Hr as [Hlo Hhi].
  destruct (trunc_spec (round_f32 (x * 32767))) as [Tp Tn].
  assert (Ht : trunc (round_f32 (x * 32767)) = 0).
  { destruct (Qlt_le_dec (round_f32 (x * 32767)) 0) as [Hs|Hs].
    - destruct Tn as [T1 T2]; [lra|].
      assert (H1 : (inject_Z (trunc (round_f32 (x * 32767)) - 1)
                    < inject_Z 0)%Q) by (change (inject_Z 0) with 0%Q; lra).
      assert (H2 : (inject_Z (-1)
                    < inject_Z (trunc (round_f32 (x * 32767))))%Q)
        by (change (inject_Z (-1)) with (-1)%Q; lra).
      rewrite <- Zlt_Qlt in H1, H2. lia.
    - destruct Tp as [T1 T2]; [lra|].
      assert (H1 : (inject_Z (trunc (round_f32 (x * 32767)))
                    < inject_Z 1)%Q) by (change (inject_Z 1) with 1%Q; lra).
      assert (H2 : (inject_Z 0
                    < inject_Z (trunc (round_f32 (x * 32767)) + 1))%Q)
        by (change (inject_Z 0) with 0%Q; lra).
      rewrite <- Zlt_Qlt in H1, H2. lia. }
  unfold quantize, astype_int16. rewrite cvt_int32_fits by lia.
  by rewrite Ht.
Qed.

(** When the target tempo equals the estimate the stretch ratio is 1. *)
Lemma stretch_ratio_same_tempo (tempo : Q) :
  (0 < tempo)%Q → (stretch_ratio tempo tempo == 1)%Q.
Proof.
  intros Ht. unfold stretch_ratio. apply Qmult_inv_r. lra.
Qed.

(** A tempo estimate of zero gives a stretch ratio of zero. *)
Lemma stretch_ratio_zero_tempo (target_bpm : Q) :
  (stretch_ratio 0 target_bpm == 0)%Q.
Proof. unfold stretch_ratio, Qdiv. apply Qmult_0_l. Qed.

(** ** How a run ends *)

(** Every exception below [Exception] is handled: the run returns
    normally unless a routine raises outside that family. *)
Lemma run_returns_or_base (L : Libs) (input_path output_path : string)
    (target_bpm : Q) (n_steps : Z) (w : world) :
  (process_vocals_for_phonk L input_path output_path target_bpm n_steps w).1
  = Ok tt
  ∨ ∃ m,
      (process_vocals_for_phonk L input_path output_path target_bpm
         n_steps w).1 = Raise (BaseException m).
Proof.
  unfold process_vocals_for_phonk, try_except.
  unfold mbind, M_bind, bind, print. simpl.
  destruct (try_body _ _ _ _ _ _) as [[[]|e] w1]; [by left|].
  destruct e as [m|m|m]; simpl; eauto.
Qed.

(** ** Error paths of the run *)

(** Case analysis on the routines in the order the body calls them. *)
Ltac stage_cases :=
  repeat match goal with
  | |- context [librosa_load ?L ?f ?p] =>
      destruct (librosa_load L f p) as [[? ?]|[?|?|?]] eqn:?; simpl
  | |- context [beat_track ?L ?y ?sr] =>
      destruct (beat_track L y sr) as [[? ?]|[?|?|?]] eqn:?; simpl
  | |- context [time_stretch ?L ?y ?r] =>
      destruct (time_stretch L y r) as [?|[?|?|?]] eqn:?; simpl
  | |- context [pitch_shift ?L ?y ?sr ?n] =>
      destruct (pitch_shift L y sr n) as [?|[?|?|?]] eqn:?; simpl
  | |- context [normalize ?L ?s] =>
      destruct (normalize L s) as [?|[?|?|?]] eqn:?; simpl
  | |- context [export ?L ?s ?p ?fmt ?f] =>
      destruct (export L s p fmt f) as [[[]|[?|?|?]] ?] eqn:?; simpl
  end.

(** X1. Whatever the routines do, the run either returns normally or
    propagates an exception from outside the [Exception] family, and in
    the latter case no handler has printed anything after the body. *)
Theorem only_base_exceptions_escape (L : Libs)
    (input_path output_path : string) (target_bpm : Q) (n_steps : Z)
    (w : world) :
  (process_vocals_for_phonk L input_path output_path target_bpm n_steps w).1
  = Ok tt
  ∨ (∃ m,
       (process_vocals_for_phonk L input_path output_path target_bpm
          n_steps w).1 = Raise (BaseException m))
    ∧ process_vocals_for_phonk L input_path output_path target_bpm n_steps w
      = try_body L input_path output_path target_bpm n_steps
          (World (stdout w ++ [msg_start]) (fs w)).
Proof.
  unfold process_vocals_for_phonk, try_except.
  unfold mbind, M_bind, bind, print. simpl.
  destruct (try_body _ _ _ _ _ _) as [[[]|e] w1]; [by left|].
  destruct e as [m|m|m]; simpl; eauto.
Qed.

(** X2. A run that returns normally has printed, as its last line, the
    completion message, the not-found message for the input path, or the
    catch-all message. *)
Theorem normal_return_last_line (L : Libs)
    (input_path output_path : string) (target_bpm : Q) (n_steps : Z)
    (w : world) :
  (process_vocals_for_phonk L input_path output_path target_bpm n_steps w).1
  = Ok tt →
  let out :=
    stdout (process_vocals_for_phonk L input_path output_path target_bpm
              n_steps w).2 in
  last out = Some msg_complete
  ∨ last out = Some (msg_not_found input_path)
  ∨ ∃ m, last out = Some (msg_unexpected m).
Proof.
  unfold process_vocals_for_phonk, try_except.
  unfold mbind, M_bind, bind, print. simpl.
  destruct (try_body _ _ _ _ _ _) as [[[]|e] w1] eqn:Hbody; simpl.
  - intros _. left.
    apply try_body_ok_inv in Hbody as (?&?&?&?&?&?&?&?&_&_&_&_&_&_&->).
    simpl. by rewrite last_app.
  - destruct e as [m|m|m]; simpl; [| |done]; intros _.
    + right. left. by rewrite last_snoc.
    + right. right. exists m. by rewrite last_snoc.
Qed.

Lemma normal_return_last_line_witness :
  (main demo_libs demo_world).1 = Ok tt
  ∧ (last (stdout (main demo_libs demo_world).2) = Some msg_complete
     ∨ last (stdout (main demo_libs demo_world).2)
       = Some (msg_not_found VOCAL_PATH)
     ∨ ∃ m, last (stdout (main demo_libs demo_world).2)
            = Some (msg_unexpected m)).
Proof.
  split; [reflexivity|].
  apply (normal_return_last_line demo_libs VOCAL_PATH OUTPUT_PATH TARGET_BPM
           PITCH_SHIFT_SEMITONES demo_world).
  reflexivity.
Defined.

(** X3. For a positive target BPM, the file system changes only through
    export: unless load, beat tracking, time-stretch, pitch-shift and
    normalization all succeeded, the files after the run are the files
    before it; otherwise they are what export left, called on the
    normalized segment, the output path and format wav. *)
Theorem no_write_before_export (L : Libs)
    (input_path output_path : string) (target_bpm : Q) (n_steps : Z)
    (w : world) :
  (0 < target_bpm)%Q →
  fs (process_vocals_for_phonk L input_path output_path target_bpm
        n_steps w).2 = fs w
  ∨ ∃ y sr original_tempo beats y_stretched y_shifted seg,
      librosa_load L (fs w) input_path = Ok (y, sr)
      ∧ beat_track L y sr = Ok (original_tempo, beats)
      ∧ time_stretch L y (stretch_ratio original_tempo target_bpm)
        = Ok y_stretched
      ∧ pitch_shift L y_stretched sr n_steps = Ok y_shifted
      ∧ normalize L (processed_audio (y_shifted_int16 y_shifted) sr)
        = Ok seg
      ∧ fs (process_vocals_for_phonk L input_path output_path target_bpm
              n_steps w).2
        = (export L seg output_path "wav" (fs w)).2.
Proof.
  intros _. unfold_py. stage_cases; auto;
    right; repeat eexists; eauto;
    match goal with H : export _ _ _ _ _ = _ |- _ => by rewrite H end.
Qed.

Lemma no_write_before_export_witness :
  (0 < TARGET_BPM)%Q
  ∧ (fs (main demo_libs demo_world).2 = fs demo_world
     ∨ ∃ y sr original_tempo beats y_stretched y_shifted seg,
         librosa_load demo_libs (fs demo_world) VOCAL_PATH = Ok (y, sr)
         ∧ beat_track demo_libs y sr = Ok (original_tempo, beats)
         ∧ time_stretch demo_libs y
             (stretch_ratio original_tempo TARGET_BPM) = Ok y_stretched
         ∧ pitch_shift demo_libs y_stretched sr PITCH_SHIFT_SEMITONES
           = Ok y_shifted
         ∧ normalize demo_libs
             (processed_audio (y_shifted_int16 y_shifted) sr) = Ok seg
         ∧ fs (main demo_libs demo_world).2
           = (export demo_libs seg OUTPUT_PATH "wav" (fs demo_world)).2).
Proof.
  split; [reflexivity|].
  apply (no_write_before_export demo_libs VOCAL_PATH OUTPUT_PATH TARGET_BPM
           PITCH_SHIFT_SEMITONES demo_world).
  reflexivity.
Defined.

(** X4. Each run prints the start message first and then at most six
    more lines, and what was on stdout before stays in front. *)
Theorem output_only_appended (L : Libs)
    (input_path output_path : string) (target_bpm : Q) (n_steps : Z)
    (w : world) :
  ∃ l,
    stdout (process_vocals_for_phonk L input_path output_path target_bpm
              n_steps w).2 = stdout w ++ msg_start :: l
    ∧ (length l ≤ 6)%nat.
Proof.
  unfold_py. stage_cases; rewrite <- ?app_assoc; simpl;
    eexists; (split; [reflexivity|]); simpl; lia.
Qed.

Lemma demo_time_stretch_rejects :
  time_stretch_rejects_nonpositive no_beat_libs.
Proof.
  intros y rate Hr. simpl. unfold demo_time_stretch.
  assert (Hnum : (0 <? Qnum rate) = false).
  { apply Z.ltb_ge. unfold Qle in Hr. simpl in Hr. lia. }
  rewrite Hnum. eauto.
Qed.

Lemma stretch_ratio_nonpos (original_tempo target_bpm : Q) :
  (original_tempo <= 0)%Q → (0 < target_bpm)%Q →
  (stretch_ratio original_tempo target_bpm <= 0)%Q.
Proof.
  intros Ht Hb. unfold stretch_ratio, Qdiv.
  assert (Hinv : (0 <= / target_bpm)%Q) by (apply Qinv_le_0_compat; lra).
  rewrite <- (Qmult_0_l (/ target_bpm)).
  by apply Qmult_le_compat_r.
Qed.

(** X5. The ratio is not guarded: when the tempo estimate is zero (or
    negative) and time-stretch rejects such a rate, the run prints the
    start, loaded and tempo lines and then the catch-all line with the
    routine's text, writes nothing and returns normally. *)
Theorem nonpositive_tempo_reported (L : Libs)
    (input_path output_path : string) (target_bpm : Q) (n_steps : Z)
    (w : world) (y : list Q) (sr : Z) (original_tempo : Q)
    (beats : list Z) :
  time_stretch_rejects_nonpositive L →
  librosa_load L (fs w) input_path = Ok (y, sr) →
  beat_track L y sr = Ok (original_tempo, beats) →
  (original_tempo <= 0)%Q → (0 < target_bpm)%Q →
  ∃ m,
    time_stretch L y (stretch_ratio original_tempo target_bpm)
    = Raise (Exception m)
    ∧ process_vocals_for_phonk L input_path output_path target_bpm
        n_steps w
      = (Ok tt,
         World (stdout w ++ [msg_start; msg_loaded input_path sr;
                             msg_tempo L original_tempo;
                             msg_unexpected m])
               (fs w)).
Proof.
  intros Hrej Hload Hbeat Ht Hb.
  destruct (Hrej y _ (stretch_ratio_nonpos _ _ Ht Hb)) as [m Hm].
  exists m. split; [done|].
  unfold_py. rewrite Hload. simpl. rewrite Hbeat. simpl. rewrite Hm.
  simpl. by rewrite <- !app_assoc.
Qed.

Lemma nonpositive_tempo_reported_witness :
  (0 <= 0)%Q ∧ (0 < TARGET_BPM)%Q
  ∧ ∃ m,
      main no_beat_libs demo_world
      = (Ok tt,
         World [msg_start; msg_loaded VOCAL_PATH 44100;
                msg_tempo no_beat_libs 0; msg_unexpected m]
               (fs demo_world)).
Proof.
  split; [discriminate|]. split; [reflexivity|].
  destruct (nonpositive_tempo_reported no_beat_libs VOCAL_PATH OUTPUT_PATH
              TARGET_BPM PITCH_SHIFT_SEMITONES demo_world demo_y 44100
              0%Q [] demo_time_stretch_rejects)
    as (m & _ & Hrun); [reflexivity|reflexivity|discriminate|reflexivity|].
  exists m. exact Hrun.
Defined.

(** X6. A [FileNotFoundError] is attributed to the input whichever call
    raised it: for a positive target BPM, when every stage succeeds and
    export raises it, the run prints the six progress lines and then the
    not-found message naming the input path, and returns normally. *)
Theorem export_not_found_blames_input (L : Libs)
    (input_path output_path : string) (target_bpm : Q) (n_steps : Z)
    (w : world) (y : list Q) (sr : Z) (original_tempo : Q)
    (beats : list Z) (y_stretched y_shifted : list Q) (seg : AudioSegment)
    (m : string) (files' : gmap string file) :
  (0 < target_bpm)%Q →
  librosa_load L (fs w) input_path = Ok (y, sr) →
  beat_track L y sr = Ok (original_tempo, beats) →
  time_stretch L y (stretch_ratio original_tempo target_bpm)
  = Ok y_stretched →
  pitch_shift L y_stretched sr n_steps = Ok y_shifted →
  normalize L (processed_audio (y_shifted_int16 y_shifted) sr) = Ok seg →
  export L seg output_path "wav" (fs w)
  = (Raise (FileNotFoundError m), files') →
  process_vocals_for_phonk L input_path output_path target_bpm n_steps w
  = (Ok tt,
     World (stdout w ++ [msg_start; msg_loaded input_path sr;
                         msg_tempo L original_tempo;
                         msg_stretched L target_bpm;
                         msg_shifted n_steps;
                         msg_exporting output_path;
                         msg_not_found input_path])
           files').
Proof.
  intros _ Hload Hbeat Hts Hps Hnorm Hexp.
  unfold_py. rewrite Hload. simpl. rewrite Hbeat. simpl. rewrite Hts.
  simpl. rewrite Hps. simpl. rewrite Hnorm. simpl. rewrite Hexp. simpl.
  by rewrite <- !app_assoc.
Qed.

Lemma export_not_found_blames_input_witness :
  (0 < TARGET_BPM)%Q
  ∧ export no_dir_libs
    (processed_audio (y_shifted_int16 [64 # 256; 192 # 256]%Q) 44100)
    OUTPUT_PATH "wav" (fs demo_world)
  = (Raise (FileNotFoundError OUTPUT_PATH), fs demo_world)
  ∧ last (stdout (main no_dir_libs demo_world).2)
    = Some (msg_not_found VOCAL_PATH).
Proof.
  split; [reflexivity|]. split; [reflexivity|]. unfold main.
  rewrite (export_not_found_blames_input no_dir_libs VOCAL_PATH OUTPUT_PATH
             TARGET_BPM PITCH_SHIFT_SEMITONES demo_world demo_y 44100
             130%Q [] [64 # 256; 192 # 256]%Q [64 # 256; 192 # 256]%Q
             (processed_audio (y_shifted_int16 [64 # 256; 192 # 256]%Q)
                44100)
             OUTPUT_PATH (fs demo_world));
    reflexivity.
Defined.

(** X7. For a positive target BPM, a run ends with the completion
    message exactly when all six routine calls succeed; and when they do,
    the run prints the seven lines in order, leaves the files as export
    left them and returns normally. *)
Theorem successful_iff_all_stages (L : Libs)
    (input_path output_path : string) (target_bpm : Q) (n_steps : Z)
    (w : world) :
  (0 < target_bpm)%Q →
  (successful
     (process_vocals_for_phonk L input_path output_path target_bpm
        n_steps w).2
   ↔ ∃ y sr original_tempo beats y_stretched y_shifted seg files',
       librosa_load L (fs w) input_path = Ok (y, sr)
       ∧ beat_track L y sr = Ok (original_tempo, beats)
       ∧ time_stretch L y (stretch_ratio original_tempo target_bpm)
         = Ok y_stretched
       ∧ pitch_shift L y_stretched sr n_steps = Ok y_shifted
       ∧ normalize L (processed_audio (y_shifted_int16 y_shifted) sr)
         = Ok seg
       ∧ export L seg output_path "wav" (fs w) = (Ok tt, files'))
  ∧ ∀ y sr original_tempo beats y_stretched y_shifted seg files',
      librosa_load L (fs w) input_path = Ok (y, sr) →
      beat_track L y sr = Ok (original_tempo, beats) →
      time_stretch L y (stretch_ratio original_tempo target_bpm)
      = Ok y_stretched →
      pitch_shift L y_stretched sr n_steps = Ok y_shifted →
      normalize L (processed_audio (y_shifted_int16 y_shifted) sr)
      = Ok seg →
      export L seg output_path "wav" (fs w) = (Ok tt, files') →
      process_vocals_for_phonk L input_path output_path target_bpm
        n_steps w
      = (Ok tt,
         World (stdout w ++ [msg_start; msg_loaded input_path sr;
                             msg_tempo L original_tempo;
                             msg_stretched L target_bpm;
                             msg_shifted n_steps;
                             msg_exporting output_path;
                             msg_complete])
               files').
Proof.
  intros _.
  assert (Hrun : ∀ y sr tempo beats y1 y2 seg files',
    librosa_load L (fs w) input_path = Ok (y, sr) →
    beat_track L y sr = Ok (tempo, beats) →
    time_stretch L y (stretch_ratio tempo target_bpm) = Ok y1 →
    pitch_shift L y1 sr n_steps = Ok y2 →
    normalize L (processed_audio (y_shifted_int16 y2) sr) = Ok seg →
    export L seg output_path "wav" (fs w) = (Ok tt, files') →
    process_vocals_for_phonk L input_path output_path target_bpm n_steps w
    = (Ok tt,
       World (stdout w ++ [msg_start; msg_loaded input_path sr;
                           msg_tempo L tempo; msg_stretched L target_bpm;
                           msg_shifted n_steps; msg_exporting output_path;
                           msg_complete]) files')).
  { intros y sr tempo beats y1 y2 seg files' Hload Hbeat Hts Hps Hnorm Hexp.
    unfold_py. rewrite Hload. simpl. rewrite Hbeat. simpl. rewrite Hts.
    simpl. rewrite Hps. simpl. rewrite Hnorm. simpl. rewrite Hexp. simpl.
    by rewrite <- !app_assoc. }
  split; [split|exact Hrun].
  - intros Hok.
    destruct (process_vocals_for_phonk L input_path output_path target_bpm
                n_steps w) as [r w'] eqn:Hp.
    destruct (successful_inv _ _ _ _ _ _ _ _ Hp Hok) as [_ Hbody].
    apply try_body_ok_inv in Hbody
      as (y & sr & tempo & beats & y1 & y2 & seg & files'
          & Hload & Hbeat & Hts & Hps & Hnorm & Hexp & _).
    simpl in Hload, Hexp.
    exists y, sr, tempo, beats, y1, y2, seg, files'. done.
  - intros (y & sr & tempo & beats & y1 & y2 & seg & files' & Hload & Hbeat
            & Hts & Hps & Hnorm & Hexp).
    rewrite (Hrun _ _ _ _ _ _ _ _ Hload Hbeat Hts Hps Hnorm Hexp).
    unfold successful. simpl. by rewrite last_app.
Qed.

Lemma successful_iff_all_stages_witness :
  (0 < TARGET_BPM)%Q
  ∧ (successful (main demo_libs demo_world).2
     ↔ ∃ y sr original_tempo beats y_stretched y_shifted seg files',
         librosa_load demo_libs (fs demo_world) VOCAL_PATH = Ok (y, sr)
         ∧ beat_track demo_libs y sr = Ok (original_tempo, beats)
         ∧ time_stretch demo_libs y
             (stretch_ratio original_tempo TARGET_BPM) = Ok y_stretched
         ∧ pitch_shift demo_libs y_stretched sr PITCH_SHIFT_SEMITONES
           = Ok y_shifted
         ∧ normalize demo_libs
             (processed_audio (y_shifted_int16 y_shifted) sr) = Ok seg
         ∧ export demo_libs seg OUTPUT_PATH "wav" (fs demo_world)
           = (Ok tt, files')).
Proof.
  split; [reflexivity|].
  apply (successful_iff_all_stages demo_libs VOCAL_PATH OUTPUT_PATH
           TARGET_BPM PITCH_SHIFT_SEMITONES demo_world).
  reflexivity.
Defined.

(** X8. A successful run changes no file other than the one at the
    output path (given that a successful wav export stores its file
    there and nothing else). *)
Theorem other_files_untouched (L : Libs)
    (input_path output_path : string) (target_bpm : Q) (n_steps : Z)
    (w w' : world) (r : result unit) (p : string) :
  export_writes_wav L →
  process_vocals_for_phonk L input_path output_path target_bpm n_steps w
  = (r, w') →
  successful w' →
  p ≠ output_path →
  fs w' !! p = fs w !! p.
Proof.
  intros Hexp Hrun Hok Hp.
  destruct (successful_inv _ _ _ _ _ _ _ _ Hrun Hok) as [_ Hbody].
  apply try_body_ok_inv in Hbody
    as (y & sr & tempo & beats & y1 & y2 & seg & files'
        & _ & _ & _ & _ & _ & Hwrite & ->).
  simpl in Hwrite. apply Hexp in Hwrite as ->. simpl.
  by rewrite lookup_insert_ne.
Qed.

Lemma other_files_untouched_witness :
  successful (main demo_libs demo_world2).2
  ∧ "notes.txt" ≠ OUTPUT_PATH
  ∧ fs (main demo_libs demo_world2).2 !! "notes.txt"
    = fs demo_world2 !! "notes.txt".
Proof.
  split; [reflexivity|]. split; [discriminate|].
  apply (other_files_untouched demo_libs VOCAL_PATH OUTPUT_PATH TARGET_BPM
           PITCH_SHIFT_SEMITONES demo_world2 (main demo_libs demo_world2).2
           (main demo_libs demo_world2).1 "notes.txt"
           demo_export_writes_wav);
    [reflexivity|reflexivity|discriminate].
Defined.

(** ** Quantization and frame data *)

(** X9. On samples in the nominal range [-1, 1] the quantization is
    odd: negating the sample negates the 16-bit value, because the
    fractional part is dropped toward zero on both sides. *)
Theorem quantize_odd (x : Q) :
  (Qabs x <= 1)%Q → quantize (- x) = - quantize x.
Proof.
  intros Hx. rewrite !quantize_nominal by (by rewrite ?Qabs_opp).
  assert (Heq : (- x * 32767)%Q = (- (x * 32767))%Q).
  { destruct x as [n d]. unfold Qmult, Qopp. cbn [Qnum Qden].
    f_equal. lia. }
  rewrite Heq, round_f32_opp. apply trunc_opp.
Qed.

Lemma quantize_odd_witness :
  (Qabs (3 # 10) <= 1)%Q ∧ quantize (- (3 # 10)) = - quantize (3 # 10).
Proof.
  split; [discriminate|]. apply (quantize_odd (3 # 10)). discriminate.
Defined.

(** X10. On samples in the nominal range the quantization keeps the
    order of the samples: a louder sample never gets a smaller value. *)
Theorem quantize_monotone (x y : Q) :
  (Qabs x <= 1)%Q → (Qabs y <= 1)%Q → (x <= y)%Q →
  quantize x ≤ quantize y.
Proof.
  intros Hx Hy Hle. rewrite !quantize_nominal by done.
  apply trunc_mono, round_f32_mono.
  apply Qmult_le_compat_r; [done|discriminate].
Qed.

Lemma quantize_monotone_witness :
  (Qabs (- (1 # 2)) <= 1)%Q ∧ (Qabs (1 # 3) <= 1)%Q
  ∧ (- (1 # 2) <= 1 # 3)%Q
  ∧ quantize (- (1 # 2)) ≤ quantize (1 # 3).
Proof.
  split; [discriminate|]. split; [discriminate|]. split; [discriminate|].
  apply (quantize_monotone (- (1 # 2)) (1 # 3)); discriminate.
Defined.

(** X11. A buffer whose samples all have an exact product with 32767
    below 1 - 2^-25 in magnitude (so that the float32 product stays below
    1) is turned into digital silence: every 16-bit sample is 0 and the
    frame data is all zero bytes, two per sample. *)
Theorem quiet_buffer_becomes_silent (y : list Q) (sr : Z) :
  Forall (λ x, (Qabs (x * 32767) < 33554431 # 33554432)%Q) y →
  y_shifted_int16 y = replicate (length y) 0
  ∧ data (processed_audio (y_shifted_int16 y) sr)
    = replicate (2 * length y) 0.
Proof.
  intros Hy.
  assert (Hq : y_shifted_int16 y = replicate (length y) 0).
  { unfold y_shifted_int16. induction Hy as [|x y Hx Hy IH]; [done|].
    rewrite fmap_cons, IH, (quantize_small x Hx). done. }
  split; [done|]. rewrite Hq. simpl. apply quantize_silence.
Qed.

Lemma quiet_buffer_becomes_silent_witness :
  Forall (λ x, (Qabs (x * 32767) < 33554431 # 33554432)%Q)
    [1 # 100000; - (1 # 50000)]%Q
  ∧ data (processed_audio
            (y_shifted_int16 [1 # 100000; - (1 # 50000)]%Q) 44100)
    = [0; 0; 0; 0].
Proof.
  assert (H : Forall (λ x, (Qabs (x * 32767) < 33554431 # 33554432)%Q)
                [1 # 100000; - (1 # 50000)]%Q).
  { repeat constructor. }
  split; [exact H|].
  exact (proj2 (quiet_buffer_becomes_silent _ 44100 H)).
Defined.

Lemma y_shifted_int16_range (y : list Q) :
  Forall is_int16 (y_shifted_int16 y).
Proof.
  unfold y_shifted_int16. apply Forall_fmap, Forall_forall. intros x _.
  apply int16_of_bits_range.
Qed.

(** X12. The segment built for pydub is well formed: every quantized
    sample is a signed 16-bit value, the frame data consists of bytes,
    and it holds exactly sample_width * channels bytes for each sample of
    the buffer, at the frame rate the file was loaded with. *)
Theorem segment_layout (y_shifted : list Q) (sr : Z) :
  Forall is_int16 (y_shifted_int16 y_shifted)
  ∧ Forall (λ b, 0 ≤ b < 256)
      (data (processed_audio (y_shifted_int16 y_shifted) sr))
  ∧ Z.of_nat (length (data (processed_audio (y_shifted_int16 y_shifted) sr)))
    = sample_width (processed_audio (y_shifted_int16 y_shifted) sr)
      * channels (processed_audio (y_shifted_int16 y_shifted) sr)
      * Z.of_nat (length y_shifted)
  ∧ frame_rate (processed_audio (y_shifted_int16 y_shifted) sr) = sr.
Proof.
  split; [apply y_shifted_int16_range|].
  split; [apply tobytes_bytes|].
  split; [|done]. simpl.
  rewrite tobytes_length. unfold y_shifted_int16. rewrite length_fmap.
  unfold itemsize_int16. lia.
Qed.

(** X13. The frame data determines the samples: two arrays of signed
    16-bit values with the same bytes are the same array. *)
Theorem tobytes_injective (a b : list Z) :
  Forall is_int16 a → Forall is_int16 b →
  tobytes a = tobytes b → a = b.
Proof.
  intros Ha. revert b. unfold tobytes.
  induction Ha as [|v a Hv Ha IH]; intros b Hb.
  - destruct b as [|v' b]; [done|]. by rewrite bind_cons.
  - destruct Hb as [|v' b Hv' Hb]; [by rewrite bind_cons|].
    rewrite !bind_cons. simpl. intros [= Hlo Hhi Hrest].
    f_equal; [|by apply IH].
    rewrite <- (tobytes_sample v Hv), <- (tobytes_sample v' Hv').
    by rewrite Hlo, Hhi.
Qed.

Lemma tobytes_injective_witness :
  Forall is_int16 (y_shifted_int16 [- (2 # 32767); 258 # 32767]%Q)
  ∧ Forall is_int16 [-2; 258]
  ∧ tobytes (y_shifted_int16 [- (2 # 32767); 258 # 32767]%Q)
    = tobytes [-2; 258]
  ∧ y_shifted_int16 [- (2 # 32767); 258 # 32767]%Q = [-2; 258].
Proof.
  assert (Ha : Forall is_int16
                 (y_shifted_int16 [- (2 # 32767); 258 # 32767]%Q)).
  { apply y_shifted_int16_range. }
  assert (Hb : Forall is_int16 [-2; 258]).
  { repeat apply Forall_cons_2; [| |apply Forall_nil_2];
      unfold is_int16; lia. }
  split; [exact Ha|]. split; [exact Hb|]. split; [reflexivity|].
  apply (tobytes_injective _ _ Ha Hb). reflexivity.
Defined.

(** ** Direction of the stretch *)

(** X14. For a positive target BPM the stretch ratio compares with 1 as
    the tempo estimate compares with the target: below 1 (slowing down)
    exactly when the estimate is below the target, 1 when they are equal,
    above 1 exactly when the estimate is above the target. *)
Theorem stretch_direction (original_tempo target_bpm : Q) :
  (0 < target_bpm)%Q →
  ((stretch_ratio original_tempo target_bpm < 1)%Q
   ↔ (original_tempo < target_bpm)%Q)
  ∧ ((stretch_ratio original_tempo target_bpm == 1)%Q
     ↔ (original_tempo == target_bpm)%Q)
  ∧ ((1 < stretch_ratio original_tempo target_bpm)%Q
     ↔ (target_bpm < original_tempo)%Q).
Proof.
  intros Hb. unfold stretch_ratio.
  assert (Hback : (original_tempo / target_bpm * target_bpm
                   == original_tempo)%Q) by (field; lra).
  revert Hback. generalize (original_tempo / target_bpm)%Q. intros r Hr.
  repeat split; intros H; nra.
Qed.

Lemma stretch_direction_witness :
  (0 < TARGET_BPM)%Q ∧ (1 < stretch_ratio 130 TARGET_BPM)%Q.
Proof.
  split; [reflexivity|].
  apply (stretch_direction 130 TARGET_BPM); reflexivity.
Defined.

(** ** A file that cannot be decoded *)

(** X15. When the loader raises an ordinary exception (the file exists
    but cannot be decoded), the run prints the start line and the
    catch-all line with the loader's text, writes nothing and returns
    normally. *)
Theorem decode_error_reported (L : Libs)
    (input_path output_path : string) (target_bpm : Q) (n_steps : Z)
    (w : world) (m : string) :
  librosa_load L (fs w) input_path = Raise (Exception m) →
  process_vocals_for_phonk L input_path output_path target_bpm n_steps w
  = (Ok tt, World (stdout w ++ [msg_start; msg_unexpected m]) (fs w)).
Proof.
  intros Hload. unfold_py. rewrite Hload. simpl. by rewrite <- app_assoc.
Qed.

Lemma decode_error_reported_witness :
  librosa_load corrupt_libs (fs demo_world) VOCAL_PATH
  = Raise (Exception "could not decode the file")
  ∧ main corrupt_libs demo_world
    = (Ok tt,
       World [msg_start; msg_unexpected "could not decode the file"]
             (fs demo_world)).
Proof.
  split; [reflexivity|].
  apply (decode_error_reported corrupt_libs VOCAL_PATH OUTPUT_PATH
           TARGET_BPM PITCH_SHIFT_SEMITONES demo_world).
  reflexivity.
Defined.
